(** * A shallow embedding of [useImuData] (src/src/App.jsx)

    The hook keeps three pieces of React state: the connection [status], and
    the two bounded sample buffers [accel] and [gyro].  It registers one
    handler per MQTT client event; the [message] handler decodes the payload
    and routes the decoded sample to the buffers.

    The JavaScript runtime the hook relies on (JSON.parse, String.prototype.trim,
    TextDecoder, number literals, division and ToNumber), together with the
    build-time value of [import.meta.env.VITE_MQTT_TOPIC], is taken as a
    parameter [js_runtime]: the theorems hold for every runtime, and a concrete
    one ([QRuntime]) is used to run the handler on concrete payloads. *)

From Stdlib Require Import List String Ascii ZArith QArith Lia Bool.
Import ListNotations.
Open Scope string_scope.
Open Scope list_scope.
Open Scope nat_scope.
Set Warnings "-register-all".

(** ** JavaScript values, as JSON.parse produces them *)

Section Values.
Variable Num : Type.

(** [JObj] keeps the members in source order. *)
Inductive jsval : Type :=
| JUndef
| JNull
| JBool (b : bool)
| JNum (n : Num)
| JStr (s : string)
| JArr (xs : list jsval)
| JObj (members : list (string * jsval)).

End Values.

Arguments JUndef {Num}.
Arguments JNull {Num}.
Arguments JBool {Num} b.
Arguments JNum {Num} n.
Arguments JStr {Num} s.
Arguments JArr {Num} xs.
Arguments JObj {Num} members.

(** The pieces of the JavaScript runtime the handler calls, and the build
    environment. *)
Record js_runtime (Num : Type) : Type := {
  rt_lit : Z -> Num;                     (** a numeric literal such as [1000] *)
  rt_div : Num -> Num -> Num;            (** the [/] operator on numbers *)
  (** ToNumber on a value that is not a number; [None]: ToPrimitive throws a
      TypeError (an object none of whose [valueOf] and [toString] is a
      callable returning a primitive) *)
  rt_to_number_other : jsval Num -> option Num;
  rt_json_parse : string -> option (jsval Num); (** [None]: JSON.parse throws *)
  rt_trim : string -> string;            (** String.prototype.trim *)
  rt_utf8_decode : list Byte.byte -> string;  (** new TextDecoder("utf-8").decode *)
  rt_env_topic : option string           (** import.meta.env.VITE_MQTT_TOPIC; [None]: undefined *)
}.

Arguments rt_lit {Num} _.
Arguments rt_div {Num} _.
Arguments rt_to_number_other {Num} _.
Arguments rt_json_parse {Num} _.
Arguments rt_trim {Num} _.
Arguments rt_utf8_decode {Num} _.
Arguments rt_env_topic {Num} _.

(** ** The state of the hook and the client events *)

Inductive conn_status : Type :=
| Connecting | Connected | Reconnecting | Offline | Closed | Error.

(** Console output, the only other visible effect of the handlers. *)
Inductive log_entry (Num : Type) : Type :=
| LogConnected                        (** console.log("[MQTT] connected") *)
| LogError (e : string)               (** console.error(e) *)
| LogRaw (raw : string)               (** console.log("[RAW]", raw) *)
| LogParseFailed (raw : string)       (** console.warn("JSON parse failed:", e, raw) *)
| LogRx (msg : jsval Num).            (** console.log("[RX]", msg) *)

Arguments LogConnected {Num}.
Arguments LogError {Num} e.
Arguments LogRaw {Num} raw.
Arguments LogParseFailed {Num} raw.
Arguments LogRx {Num} msg.

(** Commands the hook sends to the MQTT client. *)
Inductive client_cmd : Type :=
| Subscribe (topic : string) (qos : nat).

(** The payload of a [message] event: a Uint8Array or any other value,
    of which [String(payload)] is taken. *)
Inductive payload : Type :=
| PBytes (bs : list Byte.byte)
| PText (s : string).

Inductive event : Type :=
| EvConnect
| EvReconnect
| EvClose
| EvOffline
| EvError (e : string)
(** [t] is what [new Date().toLocaleTimeString()] returns while the handler runs. *)
| EvMessage (topic : string) (p : payload) (t : string).

Section Hook.
Context {Num : Type} (rt : js_runtime Num).

(** [{ t, ax, ay, az }] and [{ t, gx, gy, gz }] *)
Record accel_sample : Type := mkAccel {
  acc_t : string; ax : jsval Num; ay : jsval Num; az : jsval Num }.
Record gyro_sample : Type := mkGyro {
  gyr_t : string; gx : jsval Num; gy : jsval Num; gz : jsval Num }.

Record state : Type := mkState {
  status : conn_status;
  accel : list accel_sample;
  gyro : list gyro_sample;
  console : list (log_entry Num);
  sent : list client_cmd }.

(** [useState("connecting")], [useState([])], [useState([])] *)
Definition initial_state : state := mkState Connecting [] [] [] [].

(** [import.meta.env.VITE_MQTT_TOPIC || "jaeoh/imu"]: an undefined or empty
    variable falls back to the default. *)
Definition TOPIC : string :=
  match rt_env_topic rt with
  | Some topic => if String.eqb topic EmptyString then "jaeoh/imu" else topic
  | None => "jaeoh/imu"
  end.
Definition MAX_POINTS : nat := 300.

Definition log (s : state) (l : log_entry Num) : state :=
  mkState (status s) (accel s) (gyro s) (console s ++ [l]) (sent s).
Definition set_status (s : state) (st : conn_status) : state :=
  mkState st (accel s) (gyro s) (console s) (sent s).
Definition set_accel (s : state) (a : list accel_sample) : state :=
  mkState (status s) a (gyro s) (console s) (sent s).
Definition set_gyro (s : state) (g : list gyro_sample) : state :=
  mkState (status s) (accel s) g (console s) (sent s).
Definition send (s : state) (c : client_cmd) : state :=
  mkState (status s) (accel s) (gyro s) (console s) (sent s ++ [c]).

(** *** Evaluation that may throw a TypeError *)
Inductive throws (A : Type) : Type :=
| Ok (a : A)
| Throw.
#[global] Arguments Ok {A} a.
#[global] Arguments Throw {A}.

Definition bind {A B} (m : throws A) (k : A -> throws B) : throws B :=
  match m with Ok a => k a | Throw => Throw end.
Local Notation "x <- m ;; k" := (bind m (fun x => k)) (at level 61, m at next level, right associativity).

(** Own member [k] of an object: JSON.parse keeps the last of duplicated keys. *)
Fixpoint member (k : string) (ms : list (string * jsval Num)) : jsval Num :=
  match ms with
  | [] => JUndef
  | (k', v) :: ms' =>
      match member k ms' with
      | JUndef => if String.eqb k k' then v else JUndef
      | w => w
      end
  end.

(** [msg.k] for one of the names the handler reads (none of them is a
    property of Boolean, Number, String or Array values or their prototypes):
    reading a property of [null] or [undefined] throws a TypeError. *)
Definition get_prop (v : jsval Num) (k : string) : throws (jsval Num) :=
  match v with
  | JUndef | JNull => Throw
  | JObj ms => Ok (member k ms)
  | _ => Ok JUndef
  end.

(** [v == null], true exactly of [null] and [undefined] *)
Definition nullish (v : jsval Num) : bool :=
  match v with JUndef | JNull => true | _ => false end.

(** ToNumber, which throws when ToPrimitive does *)
Definition to_number (v : jsval Num) : throws Num :=
  match v with
  | JNum n => Ok n
  | _ => match rt_to_number_other rt v with Some n => Ok n | None => Throw end
  end.

(** [v / d] for a numeric literal [d] *)
Definition js_div (v : jsval Num) (d : Z) : throws (jsval Num) :=
  n <- to_number v ;;
  Ok (JNum (rt_div rt n (rt_lit rt d))).

(** [msg.f ?? (msg.f_raw != null ? msg.f_raw / scale : null)] *)
Definition decode_field (msg : jsval Num) (f f_raw : string) (scale : Z)
  : throws (jsval Num) :=
  a <- get_prop msg f ;;
  if nullish a then
    r <- get_prop msg f_raw ;;
    if negb (nullish r) then js_div r scale else Ok JNull
  else Ok a.

Record decoded : Type := mkDecoded {
  d_ax : jsval Num; d_ay : jsval Num; d_az : jsval Num;
  d_gx : jsval Num; d_gy : jsval Num; d_gz : jsval Num }.

(** Lines 68-73, evaluated in order. *)
Definition decode (msg : jsval Num) : throws decoded :=
  vax <- decode_field msg "ax" "ax_mg" 1000 ;;
  vay <- decode_field msg "ay" "ay_mg" 1000 ;;
  vaz <- decode_field msg "az" "az_mg" 1000 ;;
  vgx <- decode_field msg "gx" "gx_cds" 100 ;;
  vgy <- decode_field msg "gy" "gy_cds" 100 ;;
  vgz <- decode_field msg "gz" "gz_cds" 100 ;;
  Ok (mkDecoded vax vay vaz vgx vgy vgz).

(** [[a, b, c].some((v) => v != null)] *)
Definition some_non_null (vs : list (jsval Num)) : bool :=
  existsb (fun v => negb (nullish v)) vs.

(** The state updater [(prev) => { const next = [...prev, x];
    if (next.length > MAX_POINTS) next.shift(); return next; }] *)
Definition push_capped {A : Type} (prev : list A) (x : A) : list A :=
  let next := prev ++ [x] in
  if Nat.ltb MAX_POINTS (List.length next) then tl next else next.

(** Lines 75-88. *)
Definition route (t : string) (d : decoded) (s : state) : state :=
  let s :=
    if some_non_null [d_ax d; d_ay d; d_az d]
    then set_accel s (push_capped (accel s) (mkAccel t (d_ax d) (d_ay d) (d_az d)))
    else s in
  if some_non_null [d_gx d; d_gy d; d_gz d]
  then set_gyro s (push_capped (gyro s) (mkGyro t (d_gx d) (d_gy d) (d_gz d)))
  else s.

(** How a handler ends: normally, or with an exception escaping it (the
    state is the one reached when it was thrown). *)
Inductive outcome : Type :=
| Done (s : state)
| Thrown (s : state).

Definition outcome_state (o : outcome) : state :=
  match o with Done s | Thrown s => s end.

Definition payload_text (p : payload) : string :=
  match p with PBytes bs => rt_utf8_decode rt bs | PText s => s end.

(** The [message] handler, lines 51-89. *)
Definition on_message (p : payload) (t : string) (s : state) : outcome :=
  let raw := payload_text p in
  let s := log s (LogRaw raw) in
  match rt_json_parse rt (rt_trim rt raw) with
  | None => Done (log s (LogParseFailed raw))
  | Some msg =>
      let s := log s (LogRx msg) in
      match decode msg with
      | Throw => Thrown s
      | Ok d => Done (route t d s)
      end
  end.

(** All handlers registered on the client, lines 29-89. *)
Definition step (s : state) (ev : event) : outcome :=
  match ev with
  | EvConnect => Done (send (set_status (log s LogConnected) Connected) (Subscribe TOPIC 0))
  | EvReconnect => Done (set_status s Reconnecting)
  | EvClose => Done (set_status s Closed)
  | EvOffline => Done (set_status s Offline)
  | EvError e => Done (set_status (log s (LogError e)) Error)
  | EvMessage _ p t => on_message p t s
  end.

(** Events are delivered one after the other; an exception escaping a
    handler does not stop the delivery of the next event. *)
Fixpoint run (s : state) (evs : list event) : state :=
  match evs with
  | [] => s
  | ev :: evs' => run (outcome_state (step s ev)) evs'
  end.

(** The statuses observed after each event. *)
Fixpoint status_trace (s : state) (evs : list event) : list conn_status :=
  match evs with
  | [] => []
  | ev :: evs' =>
      let s' := outcome_state (step s ev) in status s' :: status_trace s' evs'
  end.

Inductive reachable : state -> Prop :=
| reach_init : reachable initial_state
| reach_step s ev : reachable s -> reachable (outcome_state (step s ev)).

End Hook.

(** ** Views of a message, in the terms of the properties below *)

Section Views.
Context {Num : Type} (rt : js_runtime Num).

(** The value the code computes for one logical field of an object message,
    or the TypeError the division throws. *)
Definition resolve (ms : list (string * jsval Num)) (f f_raw : string) (scale : Z)
  : throws (jsval Num) :=
  if nullish (member f ms) then
    (if negb (nullish (member f_raw ms)) then js_div rt (member f_raw ms) scale else Ok JNull)
  else Ok (member f ms).

(** The six logical fields: projection, pre-scaled name, raw name, scale. *)
Definition logical_fields : list ((@decoded Num -> jsval Num) * string * string * Z) :=
  [(@d_ax Num, "ax", "ax_mg", 1000%Z); (@d_ay Num, "ay", "ay_mg", 1000%Z);
   (@d_az Num, "az", "az_mg", 1000%Z); (@d_gx Num, "gx", "gx_cds", 100%Z);
   (@d_gy Num, "gy", "gy_cds", 100%Z); (@d_gz Num, "gz", "gz_cds", 100%Z)].

Definition parsed (p : payload) : option (jsval Num) :=
  rt_json_parse rt (rt_trim rt (payload_text rt p)).

(** At least one accelerometer member, pre-scaled or raw, is non-null. *)
Definition accel_field_present (ms : list (string * jsval Num)) : bool :=
  existsb (fun k => negb (nullish (member k ms)))
    ["ax"; "ay"; "az"; "ax_mg"; "ay_mg"; "az_mg"].

(** The sample a valid accelerometer message carries, if [ev] is one: an
    object with a non-null accelerometer member, whose decoding completes
    without a TypeError. *)
Definition accel_message_sample (ev : event) : option (@accel_sample Num) :=
  match ev with
  | EvMessage _ p t =>
      match parsed p with
      | Some (JObj ms) =>
          if accel_field_present ms then
            match decode rt (JObj ms) with
            | Ok d => Some (mkAccel t (d_ax d) (d_ay d) (d_az d))
            | Throw => None
            end
          else None
      | _ => None
      end
  | _ => None
  end.

(** Whether the handler takes the branch that appends to [accel] / [gyro]. *)
Definition routes_accel (p : payload) : bool :=
  match parsed p with
  | Some msg =>
      match decode rt msg with
      | Ok d => some_non_null [d_ax d; d_ay d; d_az d]
      | Throw => false
      end
  | None => false
  end.

Definition routes_gyro (p : payload) : bool :=
  match parsed p with
  | Some msg =>
      match decode rt msg with
      | Ok d => some_non_null [d_gx d; d_gy d; d_gz d]
      | Throw => false
      end
  | None => false
  end.



End Views.

(** The status a lifecycle event sets; [None] for a message. *)
Definition lifecycle_status (ev : event) : option conn_status :=
  match ev with
  | EvConnect => Some Connected
  | EvReconnect => Some Reconnecting
  | EvClose => Some Closed
  | EvOffline => Some Offline
  | EvError _ => Some Error
  | EvMessage _ _ _ => None
  end.

(** The status set by the last lifecycle event of [evs], [st] if none. *)
Definition last_status (st : conn_status) (evs : list event) : conn_status :=
  fold_left (fun st ev => match lifecycle_status ev with Some st' => st' | None => st end)
    evs st.

Definition is_message (ev : event) : bool :=
  match ev with EvMessage _ _ _ => true | _ => false end.

Definition is_connect (ev : event) : bool :=
  match ev with EvConnect => true | _ => false end.

Definition buffers {Num : Type} (s : @state Num)
  : list (@accel_sample Num) * list (@gyro_sample Num) :=
  (accel s, gyro s).

Definition lastn {A : Type} (n : nat) (l : list A) : list A :=
  skipn (List.length l - n) l.

(** ** A concrete runtime, to run the handlers on concrete payloads

    Numbers are exact rationals, [None] standing for NaN: there is no
    rounding to doubles and no infinity (a literal such as [1e400] stays
    finite, and the text [Infinity] reads as NaN); the only divisors the hook
    uses are the literals 1000 and 100.  JSON.parse is a parser of the JSON
    grammar over ASCII text (a [\u] escape of a character beyond ASCII is
    refused); TextDecoder drops a leading byte order mark and is exact on
    ASCII bytes (a byte above 127 becomes one character, not a decoded code
    point); trim is exact on ASCII text.  The build sets no
    [VITE_MQTT_TOPIC]. *)
Module QRuntime.

Definition num : Type := option Q.

Definition is_json_ws (c : ascii) : bool :=
  let n := nat_of_ascii c in (Nat.eqb n 32) || (Nat.eqb n 9) || (Nat.eqb n 10) || (Nat.eqb n 13).

(** The ASCII part of the WhiteSpace and LineTerminator sets used by trim. *)
Definition is_js_ws (c : ascii) : bool :=
  let n := nat_of_ascii c in (Nat.eqb n 32) || ((Nat.leb 9 n) && (Nat.leb n 13)).

Fixpoint skip_ws (l : list ascii) : list ascii :=
  match l with c :: r => if is_json_ws c then skip_ws r else l | [] => [] end.

Fixpoint drop_while (p : ascii -> bool) (l : list ascii) : list ascii :=
  match l with c :: r => if p c then drop_while p r else l | [] => [] end.

Definition trim (s : string) : string :=
  string_of_list_ascii
    (rev (drop_while is_js_ws (rev (drop_while is_js_ws (list_ascii_of_string s))))).

Definition utf8_decode (bs : list Byte.byte) : string :=
  let bs := match bs with
            | Byte.xef :: Byte.xbb :: Byte.xbf :: r => r
            | _ => bs
            end in
  string_of_list_ascii (map ascii_of_byte bs).

Definition is_digit (c : ascii) : bool :=
  let n := nat_of_ascii c in (Nat.leb 48 n) && (Nat.leb n 57).

(** The digits at the head of [l], their value and their count. *)
Fixpoint digits (l : list ascii) (acc : Z) (k : nat) : Z * nat * list ascii :=
  match l with
  | c :: r =>
      if is_digit c then digits r (acc * 10 + Z.of_nat (nat_of_ascii c - 48))%Z (S k)
      else (acc, k, l)
  | [] => (acc, k, [])
  end.

Definition chr (s : string) : ascii :=
  match s with String c _ => c | EmptyString => "000"%char end.

(** The value of a hexadecimal digit. *)
Definition hex_value (c : ascii) : option nat :=
  let n := nat_of_ascii c in
  if (Nat.leb 48 n) && (Nat.leb n 57) then Some (n - 48)
  else if (Nat.leb 97 n) && (Nat.leb n 102) then Some (n - 87)
  else if (Nat.leb 65 n) && (Nat.leb n 70) then Some (n - 55)
  else None.

Definition parse_number (l : list ascii) : option (Q * list ascii) :=
  let '(neg, l) :=
    match l with c :: r => if Ascii.eqb c (chr "-") then (true, r) else (false, l)
               | [] => (false, l) end in
  let leading_zero :=
    match l with c :: d :: _ => Ascii.eqb c (chr "0") && is_digit d | _ => false end in
  let '(ip, ni, l) := digits l 0 0 in
  if (Nat.eqb ni 0) || leading_zero then None else
  let frac :=
    match l with
    | c :: r =>
        if Ascii.eqb c (chr ".") then
          let '(fp, nf, r') := digits r 0 0 in
          if Nat.eqb nf 0 then None else Some ((ip * 10 ^ Z.of_nat nf + fp)%Z, Z.of_nat nf, r')
        else Some (ip, 0%Z, l)
    | [] => Some (ip, 0%Z, l)
    end in
  match frac with
  | None => None
  | Some (m, nf, l) =>
      let expo :=
        match l with
        | c :: r =>
            if Ascii.eqb c (chr "e") || Ascii.eqb c (chr "E") then
              let '(eneg, r) :=
                match r with
                | d :: r' => if Ascii.eqb d (chr "-") then (true, r')
                             else if Ascii.eqb d (chr "+") then (false, r') else (false, r)
                | [] => (false, r) end in
              let '(e, ne, r') := digits r 0 0 in
              if Nat.eqb ne 0 then None else Some (if eneg then (- e)%Z else e, r')
            else Some (0%Z, l)
        | [] => Some (0%Z, l)
        end in
      match expo with
      | None => None
      | Some (e, l) =>
          let q := Qred (inject_Z m * Qpower (inject_Z 10) (e - nf)%Z) in
          Some (if neg then Qopp q else q, l)
      end
  end.

Definition unescape (c : ascii) : option ascii :=
  match nat_of_ascii c with
  | 34%nat | 92%nat | 47%nat => Some c
  | 98%nat => Some (ascii_of_nat 8)
  | 102%nat => Some (ascii_of_nat 12)
  | 110%nat => Some (ascii_of_nat 10)
  | 114%nat => Some (ascii_of_nat 13)
  | 116%nat => Some (ascii_of_nat 9)
  | _ => None
  end.

(** The characters of a string literal, after its opening quote. *)
Fixpoint parse_chars (l : list ascii) : option (list ascii * list ascii) :=
  match l with
  | [] => None
  | c :: r =>
      if Ascii.eqb c (ascii_of_nat 34) then Some ([], r)
      else if Ascii.eqb c (chr "\") then
        match r with
        | e :: r' =>
            if Ascii.eqb e (chr "u") then
              match r' with
              | h1 :: h2 :: h3 :: h4 :: r'' =>
                  match hex_value h1, hex_value h2, hex_value h3, hex_value h4,
                        parse_chars r'' with
                  | Some a, Some b, Some c, Some d, Some (cs, r3) =>
                      let code := a * 4096 + b * 256 + c * 16 + d in
                      if Nat.ltb code 128 then Some (ascii_of_nat code :: cs, r3) else None
                  | _, _, _, _, _ => None
                  end
              | _ => None
              end
            else
            match unescape e, parse_chars r' with
            | Some c', Some (cs, r'') => Some (c' :: cs, r'')
            | _, _ => None
            end
        | [] => None
        end
      else if Nat.ltb (nat_of_ascii c) 32 then None
      else match parse_chars r with Some (cs, r') => Some (c :: cs, r') | None => None end
  end.

Fixpoint strip_prefix (p l : list ascii) : option (list ascii) :=
  match p with
  | [] => Some l
  | a :: p' =>
      match l with b :: l' => if Ascii.eqb a b then strip_prefix p' l' else None
                | [] => None end
  end.

(** One JSON value at the head of [l]; [fuel] bounds the nesting and the
    number of elements ([length l + 1] is enough). *)
Fixpoint parse_value (fuel : nat) (l : list ascii) : option (jsval num * list ascii) :=
  match fuel with
  | O => None
  | S f =>
      let fix elems (g : nat) (l : list ascii) (acc : list (jsval num))
          : option (jsval num * list ascii) :=
        match g with
        | O => None
        | S g' =>
            match parse_value f l with
            | None => None
            | Some (v, l') =>
                match skip_ws l' with
                | d :: l'' =>
                    if Ascii.eqb d (chr ",") then elems g' l'' (v :: acc)
                    else if Ascii.eqb d (chr "]") then Some (JArr (rev (v :: acc)), l'')
                    else None
                | [] => None
                end
            end
        end in
      let fix members (g : nat) (l : list ascii) (acc : list (string * jsval num))
          : option (jsval num * list ascii) :=
        match g with
        | O => None
        | S g' =>
            match skip_ws l with
            | q :: l1 =>
                if negb (Ascii.eqb q (ascii_of_nat 34)) then None else
                match parse_chars l1 with
                | None => None
                | Some (k, l2) =>
                    match skip_ws l2 with
                    | c :: l3 =>
                        if negb (Ascii.eqb c (chr ":")) then None else
                        match parse_value f l3 with
                        | None => None
                        | Some (v, l4) =>
                            let acc := (string_of_list_ascii k, v) :: acc in
                            match skip_ws l4 with
                            | d :: l5 =>
                                if Ascii.eqb d (chr ",") then members g' l5 acc
                                else if Ascii.eqb d (chr "}") then Some (JObj (rev acc), l5)
                                else None
                            | [] => None
                            end
                        end
                    | [] => None
                    end
                end
            | [] => None
            end
        end in
      match skip_ws l with
      | [] => None
      | c :: r =>
          if Ascii.eqb c (chr "n") then
            option_map (fun r' => (JNull, r')) (strip_prefix (list_ascii_of_string "ull") r)
          else if Ascii.eqb c (chr "t") then
            option_map (fun r' => (JBool true, r')) (strip_prefix (list_ascii_of_string "rue") r)
          else if Ascii.eqb c (chr "f") then
            option_map (fun r' => (JBool false, r')) (strip_prefix (list_ascii_of_string "alse") r)
          else if Ascii.eqb c (ascii_of_nat 34) then
            option_map (fun '(cs, r') => (JStr (string_of_list_ascii cs), r')) (parse_chars r)
          else if Ascii.eqb c (chr "[") then
            match skip_ws r with
            | d :: r' => if Ascii.eqb d (chr "]") then Some (JArr [], r') else elems f r []
            | [] => None
            end
          else if Ascii.eqb c (chr "{") then
            match skip_ws r with
            | d :: r' => if Ascii.eqb d (chr "}") then Some (JObj [], r') else members f r []
            | [] => None
            end
          else option_map (fun '(q, r') => (JNum (Some q), r')) (parse_number (c :: r))
      end
  end.

(** JSON.parse: one value, surrounded by JSON white space only. *)
Definition json_parse (s : string) : option (jsval num) :=
  let l := list_ascii_of_string s in
  match parse_value (S (List.length l)) l with
  | Some (v, r) => match skip_ws r with [] => Some v | _ => None end
  | None => None
  end.

(** An optional sign. *)
Definition sign_of (l : list ascii) : bool * list ascii :=
  match l with
  | c :: r =>
      if Ascii.eqb c (chr "-") then (true, r)
      else if Ascii.eqb c (chr "+") then (false, r) else (false, l)
  | [] => (false, l)
  end.

(** A StrDecimalLiteral making up all of [l]: a sign, digits with an
    optional point (at least one digit), an optional exponent. *)
Definition str_decimal (l : list ascii) : num :=
  let '(neg, l) := sign_of l in
  let '(ip, ni, l) := digits l 0 0 in
  let '(m, nf, l) :=
    match l with
    | c :: r =>
        if Ascii.eqb c (chr ".") then
          let '(fp, nf, r') := digits r 0 0 in ((ip * 10 ^ Z.of_nat nf + fp)%Z, nf, r')
        else (ip, 0, l)
    | [] => (ip, 0, l)
    end in
  if Nat.eqb (ni + nf) 0 then None else
  let expo :=
    match l with
    | [] => Some 0%Z
    | c :: r =>
        if Ascii.eqb c (chr "e") || Ascii.eqb c (chr "E") then
          let '(eneg, r) := sign_of r in
          let '(e, ne, r') := digits r 0 0 in
          match r' with
          | [] => if Nat.eqb ne 0 then None else Some (if eneg then (- e)%Z else e)
          | _ => None
          end
        else None
    end in
  match expo with
  | None => None
  | Some e =>
      let q := Qred (inject_Z m * Qpower (inject_Z 10) (e - Z.of_nat nf)%Z) in
      Some (if neg then Qopp q else q)
  end.

(** The digits of [l] in base [b], all of them. *)
Fixpoint radix_digits (b : nat) (l : list ascii) (acc : Z) : option Z :=
  match l with
  | [] => Some acc
  | c :: r =>
      match hex_value c with
      | Some v => if Nat.ltb v b then radix_digits b r (acc * Z.of_nat b + Z.of_nat v)%Z else None
      | None => None
      end
  end.

(** A NonDecimalIntegerLiteral: [0x], [0o] or [0b] and at least one digit. *)
Definition str_radix (l : list ascii) : option Z :=
  match l with
  | z :: x :: (_ :: _) as r =>
      if negb (Ascii.eqb z (chr "0")) then None
      else if Ascii.eqb x (chr "x") || Ascii.eqb x (chr "X") then radix_digits 16 r 0
      else if Ascii.eqb x (chr "o") || Ascii.eqb x (chr "O") then radix_digits 8 r 0
      else if Ascii.eqb x (chr "b") || Ascii.eqb x (chr "B") then radix_digits 2 r 0
      else None
  | _ => None
  end.

(** StringToNumber: white space around the literal is ignored, and the
    empty text is 0. *)
Definition string_to_number (s : string) : num :=
  match list_ascii_of_string (trim s) with
  | [] => Some 0%Q
  | l => match str_radix l with Some z => Some (inject_Z z) | None => str_decimal l end
  end.

(** Whether ToPrimitive throws on [v] when [v] is an object or an array
    made by JSON.parse.  Neither [valueOf] nor [toString] of an object can
    then be an own callable: the inherited [valueOf] returns the object
    itself, so the result comes from [toString], which throws exactly when
    an own (hence non-callable) [toString] member hides the inherited one.
    An array has no own [toString]; Array.prototype.toString joins the
    elements, converting each one that is not null by ToString. *)
Fixpoint to_string_throws (v : jsval num) : bool :=
  match v with
  | JObj ms => match member "toString" ms with JUndef => false | _ => true end
  | JArr xs => existsb to_string_throws xs
  | _ => false
  end.

(** ToNumber (ToString v), for an element [v] of an array and when
    [to_string_throws v] is false: [join] writes null as the empty text, a
    number as a literal that reads back as itself, an object as
    [[object Object]], and two or more elements with a comma between
    them. *)
Fixpoint elem_number (v : jsval num) : num :=
  match v with
  | JUndef | JNull => Some 0%Q
  | JBool _ => None
  | JNum n => n
  | JStr s => string_to_number s
  | JArr [] => Some 0%Q
  | JArr [x] => elem_number x
  | JArr _ => None
  | JObj _ => None
  end.

(** ToNumber on values that are not numbers; [None]: a TypeError. *)
Definition to_number_other (v : jsval num) : option num :=
  match v with
  | JUndef => Some None
  | JNull => Some (Some 0%Q)
  | JBool b => Some (Some (if b then 1%Q else 0%Q))
  | JNum n => Some n
  | JStr s => Some (string_to_number s)
  | JArr _ | JObj _ => if to_string_throws v then None else Some (elem_number v)
  end.

Definition div (a b : num) : num :=
  match a, b with
  | Some x, Some y => if Qeq_bool y 0 then None else Some (Qred (x / y))
  | _, _ => None
  end.

Definition runtime : js_runtime num := {|
  rt_lit := fun z => Some (inject_Z z);
  rt_div := div;
  rt_to_number_other := to_number_other;
  rt_json_parse := json_parse;
  rt_trim := trim;
  rt_utf8_decode := utf8_decode;
  rt_env_topic := None |}.

End QRuntime.

(** ** Concrete payloads *)
Module Samples.

Definition R : js_runtime QRuntime.num := QRuntime.runtime.

Definition dq : string := String (ascii_of_nat 34) EmptyString.
Definition key (k : string) : string := String.append dq (String.append k dq).

(** {"ax_mg": 981} *)
Definition accel_payload : payload :=
  PText (String.append "{" (String.append (key "ax_mg") ": 981}")).

(** {"ax_mg": 981, "gy_cds": 50}, received as bytes *)
Definition both_text : string :=
  String.append "{" (String.append (key "ax_mg")
    (String.append ": 981, " (String.append (key "gy_cds") ": 50}"))).
Definition both_payload : payload := PBytes (list_byte_of_string both_text).
Definition both_members : list (string * jsval QRuntime.num) :=
  [("ax_mg", JNum (Some 981%Q)); ("gy_cds", JNum (Some 50%Q))].


(** The sample it carries: 981 mg read as 0.981 g. *)
Definition accel_sample_981 (t : string) : @accel_sample QRuntime.num :=
  mkAccel t (JNum (Some (981 # 1000)%Q)) JNull JNull.

Definition accel_event (t : string) : event := EvMessage (TOPIC R) accel_payload t.

(** The state after 300 accelerometer messages: a full [accel] buffer. *)
Definition full_state : @state QRuntime.num :=
  run R initial_state (repeat (accel_event "0") 300).

(** What {"ax_mg": 981, "gy_cds": 50} decodes to, and its gyroscope sample. *)
Definition both_decoded : @decoded QRuntime.num :=
  mkDecoded (JNum (Some (981 # 1000)%Q)) JNull JNull JNull (JNum (Some (1 # 2)%Q)) JNull.

Definition gyro_event (t : string) : event := EvMessage (TOPIC R) both_payload t.

(** 5: a JSON value that is not an object *)
Definition number_payload : payload := PText "5".

(** {"temp": 21}: an object with none of the recognized members *)
Definition other_payload : payload :=
  PText (String.append "{" (String.append (key "temp") ": 21}")).
Definition other_members : list (string * jsval QRuntime.num) :=
  [("temp", JNum (Some 21%Q))].




End Samples.

(** ** Properties of the hook *)

Section Properties.
Context {Num : Type} (rt : js_runtime Num).

(** Membership of a concrete entry of [logical_fields]. *)
Local Ltac in_fields := simpl; repeat (first [left; reflexivity | right]).

Lemma decode_field_obj ms f f_raw scale :
  decode_field rt (JObj ms) f f_raw scale = resolve rt ms f f_raw scale.
Proof.
  unfold decode_field, resolve; cbn [get_prop bind].
  destruct (nullish (member f ms)); reflexivity.
Qed.

(** Each step of [decode] on an object, in order. *)
Local Ltac case_resolve :=
  repeat match goal with
  | |- context [bind (resolve ?r ?ms ?f ?fr ?sc) _] =>
      let E := fresh "E" in destruct (resolve r ms f fr sc) eqn:E; cbn [bind]
  end.

Lemma decode_obj_ok ms d :
  decode rt (JObj ms) = Ok d ->
  forall proj f f_raw scale, In (proj, f, f_raw, scale) (@logical_fields Num) ->
    resolve rt ms f f_raw scale = Ok (proj d).
Proof.
  unfold decode; rewrite !decode_field_obj; case_resolve; try discriminate.
  intros H; injection H as <-.
  intros proj f f_raw scale Hin; simpl in Hin.
  repeat (destruct Hin as [Hin | Hin]; [injection Hin as <- <- <- <-; assumption |]).
  contradiction.
Qed.

Lemma decode_obj_throw ms :
  decode rt (JObj ms) = Throw <->
  exists proj f f_raw scale, In (proj, f, f_raw, scale) (@logical_fields Num) /\
    resolve rt ms f f_raw scale = Throw.
Proof.
  unfold decode; rewrite !decode_field_obj; case_resolve;
    try (split; [intros _; eexists _, _, _, _; split; [| eassumption]; in_fields
                | reflexivity]).
  split; [discriminate |].
  intros (proj & f & f_raw & scale & Hin & H); simpl in Hin.
  repeat (destruct Hin as [Hin | Hin]; [injection Hin as <- <- <- <-; congruence |]).
  contradiction.
Qed.

(** The division of a raw member throws exactly when ToNumber does. *)
Lemma resolve_throw ms f f_raw scale :
  resolve rt ms f f_raw scale = Throw <->
  nullish (member f ms) = true /\ nullish (member f_raw ms) = false /\
  to_number rt (member f_raw ms) = Throw.
Proof.
  unfold resolve, js_div.
  destruct (nullish (member f ms)); [| split; [discriminate | intros [H _]; discriminate H]].
  destruct (nullish (member f_raw ms)); cbn [negb];
    [split; [discriminate | intros [_ [H _]]; discriminate H] |].
  destruct (to_number rt (member f_raw ms)); cbn [bind].
  - split; [discriminate | intros [_ [_ H]]; discriminate H].
  - split; [intros _; repeat split; reflexivity | reflexivity].
Qed.

Lemma on_message_parsed p t s msg :
  parsed rt p = Some msg ->
  on_message rt p t s =
  match decode rt msg with
  | Ok d => Done (route t d (log (log s (LogRaw (payload_text rt p))) (LogRx msg)))
  | Throw => Thrown (log (log s (LogRaw (payload_text rt p))) (LogRx msg))
  end.
Proof.
  intros H; unfold on_message; fold (parsed rt p); rewrite H; reflexivity.
Qed.

Lemma on_message_throw p t s msg :
  parsed rt p = Some msg -> decode rt msg = Throw ->
  on_message rt p t s = Thrown (log (log s (LogRaw (payload_text rt p))) (LogRx msg)).
Proof.
  intros H E; rewrite (on_message_parsed p t s msg H), E; reflexivity.
Qed.

Lemma route_accel (t : string) (d : @decoded Num) (s : @state Num) :
  accel (route t d s) =
  if some_non_null [d_ax d; d_ay d; d_az d]
  then push_capped (accel s) (mkAccel t (d_ax d) (d_ay d) (d_az d)) else accel s.
Proof.
  unfold route; destruct (some_non_null [d_ax d; d_ay d; d_az d]);
    destruct (some_non_null [d_gx d; d_gy d; d_gz d]); reflexivity.
Qed.

Lemma route_gyro (t : string) (d : @decoded Num) (s : @state Num) :
  gyro (route t d s) =
  if some_non_null [d_gx d; d_gy d; d_gz d]
  then push_capped (gyro s) (mkGyro t (d_gx d) (d_gy d) (d_gz d)) else gyro s.
Proof.
  unfold route; destruct (some_non_null [d_ax d; d_ay d; d_az d]);
    destruct (some_non_null [d_gx d; d_gy d; d_gz d]); reflexivity.
Qed.

Lemma route_status (t : string) (d : @decoded Num) (s : @state Num) : status (route t d s) = status s.
Proof.
  unfold route; destruct (some_non_null [d_ax d; d_ay d; d_az d]);
    destruct (some_non_null [d_gx d; d_gy d; d_gz d]); reflexivity.
Qed.


(** *** The bounded buffers *)

Lemma push_capped_fifo {A : Type} (prev : list A) (x : A) :
  push_capped prev x =
  (if Nat.ltb MAX_POINTS (S (List.length prev)) then tl prev else prev) ++ [x].
Proof.
  unfold push_capped; rewrite length_app; simpl.
  replace (List.length prev + 1) with (S (List.length prev)) by lia.
  destruct (Nat.ltb MAX_POINTS (S (List.length prev))) eqn:E; [| reflexivity].
  destruct prev as [| y prev]; [| reflexivity].
  apply Nat.ltb_lt in E; unfold MAX_POINTS in E; simpl in E; lia.
Qed.

Lemma push_capped_length {A : Type} (prev : list A) (x : A) :
  List.length prev <= MAX_POINTS ->
  List.length (push_capped prev x) = Nat.min (S (List.length prev)) MAX_POINTS.
Proof.
  intros H; rewrite push_capped_fifo; unfold MAX_POINTS in *.
  destruct (Nat.ltb 300 (S (List.length prev))) eqn:E.
  - apply Nat.ltb_lt in E.
    rewrite length_app, length_tl; simpl; lia.
  - apply Nat.ltb_ge in E; rewrite length_app; simpl; lia.
Qed.

Lemma step_accel (s : @state Num) ev :
  accel (outcome_state (step rt s ev)) = accel s \/
  exists x, accel (outcome_state (step rt s ev)) = push_capped (accel s) x.
Proof.
  destruct ev; try (left; reflexivity).
  simpl; unfold on_message.
  destruct (rt_json_parse rt _) as [msg |]; [| left; reflexivity].
  destruct (decode rt msg) as [d |]; [| left; reflexivity].
  simpl; rewrite route_accel.
  destruct (some_non_null _); [right; eexists; reflexivity | left; reflexivity].
Qed.

Lemma step_gyro (s : @state Num) ev :
  gyro (outcome_state (step rt s ev)) = gyro s \/
  exists x, gyro (outcome_state (step rt s ev)) = push_capped (gyro s) x.
Proof.
  destruct ev; try (left; reflexivity).
  simpl; unfold on_message.
  destruct (rt_json_parse rt _) as [msg |]; [| left; reflexivity].
  destruct (decode rt msg) as [d |]; [| left; reflexivity].
  simpl; rewrite route_gyro.
  destruct (some_non_null _); [right; eexists; reflexivity | left; reflexivity].
Qed.

Lemma reachable_bounded (s : @state Num) :
  reachable rt s ->
  List.length (accel s) <= MAX_POINTS /\ List.length (gyro s) <= MAX_POINTS.
Proof.
  induction 1 as [| s ev _ [IHa IHg]]; [simpl; unfold MAX_POINTS; lia |].
  split.
  - destruct (step_accel s ev) as [-> | [x ->]]; [assumption |].
    rewrite push_capped_length by assumption; lia.
  - destruct (step_gyro s ev) as [-> | [x ->]]; [assumption |].
    rewrite push_capped_length by assumption; lia.
Qed.

Lemma run_reachable (s : @state Num) evs :
  reachable rt s -> reachable rt (run rt s evs).
Proof.
  revert s; induction evs as [| ev evs IH]; intros s H; [exact H |].
  apply IH, reach_step, H.
Qed.

(** C2: in every reachable state, after a message both buffers hold at most
    [MAX_POINTS] (300) samples; a buffer the message appends to loses
    exactly its oldest sample first when the append would exceed the cap. *)
Theorem buffers_capped_sliding_window (s : @state Num) (topic : string)
    (p : payload) (t : string) (Hr : reachable rt s) :
  let s' := outcome_state (step rt s (EvMessage topic p t)) in
  List.length (accel s') <= MAX_POINTS /\ List.length (gyro s') <= MAX_POINTS /\
  (accel s' = accel s \/
   exists x, accel s' =
     (if Nat.ltb MAX_POINTS (S (List.length (accel s))) then tl (accel s) else accel s)
     ++ [x]) /\
  (gyro s' = gyro s \/
   exists x, gyro s' =
     (if Nat.ltb MAX_POINTS (S (List.length (gyro s))) then tl (gyro s) else gyro s)
     ++ [x]).
Proof.
  intros s'.
  destruct (reachable_bounded s' (reach_step rt s _ Hr)) as [Ha Hg].
  split; [exact Ha |]; split; [exact Hg |]; split.
  - destruct (step_accel s (EvMessage topic p t)) as [E | [x E]];
      [left; exact E | right; exists x; rewrite <- push_capped_fifo; exact E].
  - destruct (step_gyro s (EvMessage topic p t)) as [E | [x E]];
      [left; exact E | right; exists x; rewrite <- push_capped_fifo; exact E].
Qed.

(** *** Samples appended by a message *)

Lemma resolve_ok_non_null ms f f_raw scale v :
  resolve rt ms f f_raw scale = Ok v ->
  negb (nullish v) = negb (nullish (member f ms)) || negb (nullish (member f_raw ms)).
Proof.
  intros H; unfold resolve in H.
  destruct (nullish (member f ms)) eqn:E1; destruct (nullish (member f_raw ms)) eqn:E2;
    cbn [negb orb] in H |- *.
  - injection H as <-; reflexivity.
  - unfold js_div in H; destruct (to_number rt (member f_raw ms)); cbn [bind] in H;
      [injection H as <-; reflexivity | discriminate H].
  - injection H as <-; rewrite E1; reflexivity.
  - injection H as <-; rewrite E1; reflexivity.
Qed.

Lemma accel_present_routes ms d :
  decode rt (JObj ms) = Ok d ->
  some_non_null [d_ax d; d_ay d; d_az d] = accel_field_present ms.
Proof.
  intros E; pose proof (decode_obj_ok ms d E) as H.
  unfold some_non_null, accel_field_present; simpl.
  rewrite (resolve_ok_non_null _ _ _ _ _ (H (@d_ax Num) "ax" "ax_mg" 1000%Z ltac:(in_fields))),
    (resolve_ok_non_null _ _ _ _ _ (H (@d_ay Num) "ay" "ay_mg" 1000%Z ltac:(in_fields))),
    (resolve_ok_non_null _ _ _ _ _ (H (@d_az Num) "az" "az_mg" 1000%Z ltac:(in_fields))).
  destruct (nullish (member "ax" ms)), (nullish (member "ay" ms)), (nullish (member "az" ms)),
    (nullish (member "ax_mg" ms)), (nullish (member "ay_mg" ms)), (nullish (member "az_mg" ms));
    reflexivity.
Qed.

Lemma on_message_accel_obj (s : @state Num) p t ms d :
  parsed rt p = Some (JObj ms) -> decode rt (JObj ms) = Ok d ->
  accel (outcome_state (on_message rt p t s)) =
  if accel_field_present ms then push_capped (accel s) (mkAccel t (d_ax d) (d_ay d) (d_az d))
  else accel s.
Proof.
  intros H E; rewrite (on_message_parsed p t s _ H), E; cbn [outcome_state].
  rewrite route_accel, (accel_present_routes ms d E); reflexivity.
Qed.


Lemma push_capped_lastn {A : Type} (prev : list A) (x : A) :
  List.length prev <= MAX_POINTS ->
  push_capped prev x = lastn MAX_POINTS (prev ++ [x]).
Proof.
  intros H; unfold push_capped, lastn; rewrite length_app; simpl.
  unfold MAX_POINTS in *.
  destruct (Nat.ltb 300 (List.length prev + 1)) eqn:E.
  - apply Nat.ltb_lt in E.
    replace (List.length prev + 1 - 300) with 1 by lia; reflexivity.
  - apply Nat.ltb_ge in E.
    replace (List.length prev + 1 - 300) with 0 by lia; reflexivity.
Qed.

Lemma lastn_app_long {A : Type} n (a b : list A) :
  n <= List.length b -> lastn n (a ++ b) = lastn n b.
Proof.
  intros H; unfold lastn; rewrite length_app, skipn_app.
  rewrite (skipn_all2 a) by lia; simpl.
  f_equal; lia.
Qed.

Lemma lastn_short {A : Type} n (a : list A) :
  List.length a <= n -> lastn n a = a.
Proof.
  intros H; unfold lastn; replace (List.length a - n) with 0 by lia; reflexivity.
Qed.

Lemma lastn_lastn_app {A : Type} n (a b : list A) :
  lastn n (lastn n a ++ b) = lastn n (a ++ b).
Proof.
  destruct (Nat.le_gt_cases (List.length a) n) as [Hs | Hl].
  - rewrite (lastn_short n a Hs); reflexivity.
  - rewrite <- (firstn_skipn (List.length a - n) a) at 2.
    rewrite <- app_assoc, (lastn_app_long n (firstn (List.length a - n) a));
      [reflexivity |].
    rewrite length_app, length_skipn; lia.
Qed.

Lemma length_lastn {A : Type} n (a : list A) :
  n <= List.length a -> List.length (lastn n a) = n.
Proof.
  intros H; unfold lastn; rewrite length_skipn; lia.
Qed.

Lemma accel_message_step (s : @state Num) ev x :
  accel_message_sample rt ev = Some x ->
  accel (outcome_state (step rt s ev)) = push_capped (accel s) x.
Proof.
  destruct ev as [| | | | | topic p t]; try discriminate; cbn [accel_message_sample step].
  destruct (parsed rt p) as [msg |] eqn:Hp; try discriminate.
  destruct msg; try discriminate.
  destruct (accel_field_present members) eqn:Ha; try discriminate.
  destruct (decode rt (JObj members)) as [d |] eqn:E; try discriminate.
  intros H; injection H as <-.
  rewrite (on_message_accel_obj s p t members d Hp E), Ha; reflexivity.
Qed.

Lemma run_accel_window evs xs (s : @state Num) :
  reachable rt s ->
  map (accel_message_sample rt) evs = map Some xs ->
  accel (run rt s evs) = lastn MAX_POINTS (accel s ++ xs).
Proof.
  revert xs s; induction evs as [| ev evs IH]; intros xs s Hr Hv.
  - destruct xs; [| discriminate].
    rewrite app_nil_r, lastn_short; [reflexivity | apply (reachable_bounded s Hr)].
  - destruct xs as [| x xs]; [discriminate |].
    injection Hv as Hx Hv; simpl.
    rewrite (IH xs _ (reach_step rt s ev Hr) Hv), (accel_message_step s ev x Hx).
    rewrite push_capped_lastn by apply (reachable_bounded s Hr).
    rewrite lastn_lastn_app, <- app_assoc; reflexivity.
Qed.

(** C5: after more than 300 valid accelerometer messages, the accel buffer
    holds exactly 300 samples: those of the 300 most recent messages, in
    arrival order. *)
Theorem accel_window_most_recent (s : @state Num) (evs : list event)
    (xs : list (@accel_sample Num))
    (Hr : reachable rt s) (Hv : map (accel_message_sample rt) evs = map Some xs)
    (Hn : MAX_POINTS < List.length evs) :
  List.length (accel (run rt s evs)) = MAX_POINTS /\
  accel (run rt s evs) = lastn MAX_POINTS xs.
Proof.
  assert (Hl : List.length evs = List.length xs).
  { rewrite <- (length_map (accel_message_sample rt) evs), Hv, length_map; reflexivity. }
  rewrite (run_accel_window evs xs s Hr Hv), lastn_app_long by lia.
  split; [apply length_lastn; lia | reflexivity].
Qed.



(** C8: the status is [Connecting] on mount, and the events connect,
    reconnect, close produce the statuses connected, reconnecting, closed,
    one per event, from any state. *)
Theorem status_lifecycle_sequence :
  status (@initial_state Num) :: status_trace rt initial_state [EvConnect; EvReconnect; EvClose]
  = [Connecting; Connected; Reconnecting; Closed] /\
  forall s : @state Num,
    status_trace rt s [EvConnect; EvReconnect; EvClose] = [Connected; Reconnecting; Closed].
Proof.
  split; [reflexivity | intros s; reflexivity].
Qed.

(** C9: a message never changes the status, and leaves the buffer it does
    not route to unchanged. *)
Theorem message_frame (s : @state Num) (topic : string) (p : payload) (t : string) :
  let s' := outcome_state (step rt s (EvMessage topic p t)) in
  status s' = status s /\
  (routes_accel rt p = false -> accel s' = accel s) /\
  (routes_gyro rt p = false -> gyro s' = gyro s).
Proof.
  intros s'; unfold s'; simpl; unfold on_message, routes_accel, routes_gyro.
  fold (parsed rt p).
  destruct (parsed rt p) as [msg |]; [| repeat split; reflexivity].
  destruct (decode rt msg) as [d |]; [| repeat split; reflexivity].
  cbn [outcome_state]; rewrite route_status, route_accel, route_gyro.
  destruct (some_non_null [d_ax d; d_ay d; d_az d]);
    destruct (some_non_null [d_gx d; d_gy d; d_gz d]);
    repeat split; intros H; try discriminate H; reflexivity.
Qed.

(** C10: a message that updates both buffers appends two samples carrying
    the same timestamp [t]. *)
Theorem shared_timestamp (s : @state Num) (p : payload) (t : string)
    (msg : jsval Num) (d : @decoded Num)
    (Hp : parsed rt p = Some msg) (Hd : decode rt msg = Ok d)
    (Ha : some_non_null [d_ax d; d_ay d; d_az d] = true)
    (Hg : some_non_null [d_gx d; d_gy d; d_gz d] = true) :
  let s' := outcome_state (on_message rt p t s) in
  exists xa xg,
    accel s' = push_capped (accel s) xa /\ gyro s' = push_capped (gyro s) xg /\
    acc_t xa = gyr_t xg /\ acc_t xa = t.
Proof.
  intros s'; unfold s', on_message; fold (parsed rt p); rewrite Hp, Hd; simpl.
  rewrite route_accel, route_gyro, Ha, Hg; simpl.
  do 2 eexists; repeat split; reflexivity.
Qed.

(** *** Messages that are not objects *)

Lemma null_message_throws (s : @state Num) (p : payload) (t : string) :
  parsed rt p = Some JNull ->
  on_message rt p t s =
  Thrown (log (log s (LogRaw (payload_text rt p))) (LogRx JNull)).
Proof.
  intros H; unfold on_message; fold (parsed rt p); rewrite H; reflexivity.
Qed.

(** Any other value that is not an object (boolean, number, string, array)
    is dropped without an exception, only the logs changing. *)
Lemma primitive_message_dropped (s : @state Num) (p : payload) (t : string) v :
  parsed rt p = Some v -> nullish v = false -> (forall ms, v <> JObj ms) ->
  on_message rt p t s =
  Done (log (log s (LogRaw (payload_text rt p))) (LogRx v)).
Proof.
  intros H Hn Ho; unfold on_message; fold (parsed rt p); rewrite H.
  destruct v; try discriminate Hn; try (exfalso; eapply Ho; reflexivity); reflexivity.
Qed.

(** *** The gyroscope buffer *)







(** *** Sequences of events *)

Lemma step_status (s : @state Num) ev :
  status (outcome_state (step rt s ev)) =
  match lifecycle_status ev with Some st => st | None => status s end.
Proof.
  destruct ev; try reflexivity; simpl; unfold on_message.
  destruct (rt_json_parse rt _) as [msg |]; [destruct (decode rt msg) as [d |] |];
    cbn [outcome_state]; try rewrite route_status; reflexivity.
Qed.

(** The status after a sequence of events is the one set by its last
    lifecycle event (messages never change it), or the starting status if
    it has none. *)
Theorem status_run_last_lifecycle (s : @state Num) (evs : list event) :
  status (run rt s evs) = last_status (status s) evs.
Proof.
  revert s; induction evs as [| ev evs IH]; intros s; [reflexivity |].
  simpl; rewrite IH, step_status; reflexivity.
Qed.

Lemma step_buffers (s1 s2 : @state Num) ev :
  buffers s1 = buffers s2 ->
  buffers (outcome_state (step rt s1 ev)) = buffers (outcome_state (step rt s2 ev)).
Proof.
  unfold buffers; intros H; injection H as Ha Hg.
  destruct ev; cbn; try (rewrite Ha, Hg; reflexivity).
  unfold on_message.
  destruct (rt_json_parse rt _) as [msg |]; [destruct (decode rt msg) as [d |] |];
    cbn [outcome_state]; rewrite ?route_accel, ?route_gyro; cbn; rewrite Ha, Hg;
    reflexivity.
Qed.

(** Lifecycle events never touch the buffers: the buffers after a sequence
    of events are those after its messages alone. *)
Theorem buffers_from_messages_only (s : @state Num) (evs : list event) :
  buffers (run rt s evs) = buffers (run rt s (filter is_message evs)).
Proof.
  enough (G : forall s1 s2 : @state Num, buffers s1 = buffers s2 ->
              buffers (run rt s1 evs) = buffers (run rt s2 (filter is_message evs)))
    by (apply G; reflexivity).
  induction evs as [| ev evs IH]; intros s1 s2 H; [exact H |].
  cbn [filter run]; destruct (is_message ev) eqn:E; cbn [run]; apply IH.
  - apply step_buffers, H.
  - rewrite <- H; destruct ev; try discriminate E; reflexivity.
Qed.

Lemma step_sent (s : @state Num) ev :
  sent (outcome_state (step rt s ev)) =
  sent s ++ (if is_connect ev then [Subscribe (TOPIC rt) 0] else []).
Proof.
  destruct ev; cbn; rewrite ?app_nil_r; try reflexivity.
  unfold on_message.
  destruct (rt_json_parse rt _) as [msg |]; [destruct (decode rt msg) as [d |] |];
    cbn [outcome_state]; try reflexivity.
  unfold route; destruct (some_non_null _), (some_non_null _); reflexivity.
Qed.

(** Every connect event, and only a connect event, sends one subscription
    to [TOPIC] (the build's [VITE_MQTT_TOPIC], or "jaeoh/imu" when it is
    undefined or empty) with QoS 0, so the client is resubscribed on each
    (re)connection. *)
Theorem subscribe_per_connect (s : @state Num) (evs : list event) :
  sent (run rt s evs) =
  sent s ++ repeat (Subscribe (TOPIC rt) 0) (List.length (filter is_connect evs)).
Proof.
  revert s; induction evs as [| ev evs IH]; intros s; [simpl; rewrite app_nil_r; reflexivity |].
  simpl; rewrite IH, step_sent, <- app_assoc.
  destruct (is_connect ev); reflexivity.
Qed.

(** Reachable buffers never shrink: each event keeps or grows their length. *)
Theorem buffers_never_shrink (s : @state Num) (evs : list event) (Hr : reachable rt s) :
  List.length (accel s) <= List.length (accel (run rt s evs)) /\
  List.length (gyro s) <= List.length (gyro (run rt s evs)).
Proof.
  revert s Hr; induction evs as [| ev evs IH]; intros s Hr; [split; apply Nat.le_refl |].
  simpl; destruct (IH _ (reach_step rt s ev Hr)) as [IHa IHg].
  destruct (reachable_bounded s Hr) as [Ba Bg].
  split.
  - destruct (step_accel s ev) as [E | [x E]]; rewrite E in IHa; [exact IHa |].
    rewrite push_capped_length in IHa by exact Ba; lia.
  - destruct (step_gyro s ev) as [E | [x E]]; rewrite E in IHg; [exact IHg |].
    rewrite push_capped_length in IHg by exact Bg; lia.
Qed.

(** *** What one message logs and when it throws *)

(** A message always logs its raw text first, then either the parse
    failure or the parsed value, and nothing else. *)
Theorem message_console (s : @state Num) (topic : string) (p : payload) (t : string) :
  console (outcome_state (step rt s (EvMessage topic p t))) =
  console s ++ LogRaw (payload_text rt p) ::
    match parsed rt p with
    | None => [LogParseFailed (payload_text rt p)]
    | Some msg => [LogRx msg]
    end.
Proof.
  simpl; unfold on_message; fold (parsed rt p).
  destruct (parsed rt p) as [msg |]; cbn; [| rewrite <- app_assoc; reflexivity].
  destruct (decode rt msg) as [d |]; cbn; [| rewrite <- app_assoc; reflexivity].
  unfold route; destruct (some_non_null _), (some_non_null _); cbn;
    rewrite <- app_assoc; reflexivity.
Qed.

(** An exception escapes the message handler exactly when the payload
    parses to [null] (or [undefined]), or to an object one of whose logical
    fields falls back on a raw member on which ToNumber throws. *)
Theorem handler_throws_iff (s : @state Num) (p : payload) (t : string) :
  (exists s', on_message rt p t s = Thrown s') <->
  (exists v, parsed rt p = Some v /\ nullish v = true) \/
  (exists ms proj f f_raw scale, parsed rt p = Some (JObj ms) /\
     In (proj, f, f_raw, scale) (@logical_fields Num) /\
     nullish (member f ms) = true /\ nullish (member f_raw ms) = false /\
     to_number rt (member f_raw ms) = Throw).
Proof.
  split.
  - intros [s' H].
    destruct (parsed rt p) as [msg |] eqn:Hp;
      [| unfold on_message in H; fold (parsed rt p) in H; rewrite Hp in H; discriminate H].
    rewrite (on_message_parsed p t s msg Hp) in H.
    destruct (decode rt msg) eqn:E; [discriminate H |].
    destruct msg; try (left; eexists; split; [reflexivity | reflexivity]);
      try (cbn in E; discriminate E).
    right; apply decode_obj_throw in E; destruct E as (proj & f & f_raw & scale & Hin & Ht).
    apply resolve_throw in Ht.
    exists members, proj, f, f_raw, scale; split; [reflexivity | split; [exact Hin | exact Ht]].
  - intros [[v [Hp Hn]] | (ms & proj & f & f_raw & scale & Hp & Hin & H1 & H2 & H3)].
    + rewrite (on_message_parsed p t s v Hp).
      destruct v; try discriminate Hn; eexists; reflexivity.
    + assert (E : decode rt (JObj ms) = Throw).
      { apply decode_obj_throw; exists proj, f, f_raw, scale; split; [exact Hin |].
        apply resolve_throw; split; [exact H1 | split; [exact H2 | exact H3]]. }
      rewrite (on_message_throw p t s _ Hp E); eexists; reflexivity.
Qed.

(** An object with none of the twelve recognized members is logged and
    otherwise ignored: no buffer changes and no exception escapes. *)
Theorem unrecognized_object_ignored (s : @state Num) (p : payload) (t : string)
    (ms : list (string * jsval Num)) (Hp : parsed rt p = Some (JObj ms))
    (Hn : forallb (fun k => nullish (member k ms))
            ["ax"; "ay"; "az"; "ax_mg"; "ay_mg"; "az_mg";
             "gx"; "gy"; "gz"; "gx_cds"; "gy_cds"; "gz_cds"] = true) :
  on_message rt p t s = Done (log (log s (LogRaw (payload_text rt p))) (LogRx (JObj ms))).
Proof.
  rewrite (on_message_parsed p t s _ Hp).
  simpl in Hn; repeat (apply andb_prop in Hn; destruct Hn as [? Hn]).
  unfold decode; rewrite !decode_field_obj; unfold resolve.
  repeat match goal with H : nullish _ = true |- _ => rewrite H; clear H end.
  reflexivity.
Qed.

End Properties.

(** ** The properties on concrete payloads *)

Import Samples.

Lemma buffers_capped_sliding_window_witness :
  reachable R full_state /\
  let s' := outcome_state (step R full_state (EvMessage (TOPIC R) both_payload "1")) in
  List.length (accel s') <= MAX_POINTS /\ List.length (gyro s') <= MAX_POINTS /\
  (accel s' = accel full_state \/
   exists x, accel s' =
     (if Nat.ltb MAX_POINTS (S (List.length (accel full_state)))
      then tl (accel full_state) else accel full_state) ++ [x]) /\
  (gyro s' = gyro full_state \/
   exists x, gyro s' =
     (if Nat.ltb MAX_POINTS (S (List.length (gyro full_state)))
      then tl (gyro full_state) else gyro full_state) ++ [x]).
Proof.
  assert (Hr : reachable R full_state) by (apply run_reachable, reach_init).
  split; [exact Hr |].
  exact (buffers_capped_sliding_window R full_state (TOPIC R) both_payload "1" Hr).
Defined.




Lemma accel_window_most_recent_witness :
  reachable R initial_state /\
  map (accel_message_sample R) (repeat (accel_event "0") 301)
    = map Some (repeat (accel_sample_981 "0") 301) /\
  MAX_POINTS < List.length (repeat (accel_event "0") 301) /\
  List.length (accel (run R initial_state (repeat (accel_event "0") 301))) = MAX_POINTS /\
  accel (run R initial_state (repeat (accel_event "0") 301))
    = lastn MAX_POINTS (repeat (accel_sample_981 "0") 301).
Proof.
  assert (Hr : reachable R initial_state) by apply reach_init.
  assert (Hv : map (accel_message_sample R) (repeat (accel_event "0") 301)
               = map Some (repeat (accel_sample_981 "0") 301))
    by (vm_compute; reflexivity).
  assert (Hn : MAX_POINTS < List.length (repeat (accel_event "0") 301))
    by (rewrite repeat_length; unfold MAX_POINTS; lia).
  split; [exact Hr | split; [exact Hv | split; [exact Hn |]]].
  exact (accel_window_most_recent R initial_state _ _ Hr Hv Hn).
Defined.




Lemma shared_timestamp_witness :
  parsed R both_payload = Some (JObj both_members) /\
  decode R (JObj both_members) = Ok both_decoded /\
  some_non_null [d_ax both_decoded; d_ay both_decoded; d_az both_decoded] = true /\
  some_non_null [d_gx both_decoded; d_gy both_decoded; d_gz both_decoded] = true /\
  let s' := outcome_state (on_message R both_payload "12:00:01" initial_state) in
  exists xa xg,
    accel s' = push_capped (accel initial_state) xa /\
    gyro s' = push_capped (gyro initial_state) xg /\
    acc_t xa = gyr_t xg /\ acc_t xa = "12:00:01".
Proof.
  assert (Hp : parsed R both_payload = Some (JObj both_members)) by (vm_compute; reflexivity).
  assert (Hd : decode R (JObj both_members) = Ok both_decoded) by (vm_compute; reflexivity).
  assert (Ha : some_non_null [d_ax both_decoded; d_ay both_decoded; d_az both_decoded] = true)
    by reflexivity.
  assert (Hg : some_non_null [d_gx both_decoded; d_gy both_decoded; d_gz both_decoded] = true)
    by reflexivity.
  split; [exact Hp | split; [exact Hd | split; [exact Ha | split; [exact Hg |]]]].
  exact (shared_timestamp R initial_state both_payload "12:00:01" _ _ Hp Hd Ha Hg).
Defined.

(** C3 (code bug): the payload [null] parses to a non-object value, and
    reading [msg.ax] then throws a TypeError out of the handler. *)
Theorem null_payload_escapes_handler :
  on_message R (PText "null") "0" initial_state =
  Thrown (mkState Connecting [] [] [LogRaw "null"; LogRx JNull] []).
Proof.
  vm_compute; reflexivity.
Qed.



Lemma buffers_never_shrink_witness :
  reachable R full_state /\
  List.length (accel full_state)
    <= List.length (accel (run R full_state [EvClose; gyro_event "1"; EvConnect])) /\
  List.length (gyro full_state)
    <= List.length (gyro (run R full_state [EvClose; gyro_event "1"; EvConnect])).
Proof.
  assert (Hr : reachable R full_state) by (apply run_reachable, reach_init).
  split; [exact Hr |].
  exact (buffers_never_shrink R full_state [EvClose; gyro_event "1"; EvConnect] Hr).
Defined.

Lemma primitive_message_dropped_witness :
  parsed R number_payload = Some (JNum (Some 5%Q)) /\
  nullish (@JNum QRuntime.num (Some 5%Q)) = false /\
  (forall ms, @JNum QRuntime.num (Some 5%Q) <> JObj ms) /\
  on_message R number_payload "0" full_state =
  Done (log (log full_state (LogRaw (payload_text R number_payload)))
            (LogRx (JNum (Some 5%Q)))).
Proof.
  assert (Hp : parsed R number_payload = Some (JNum (Some 5%Q))) by (vm_compute; reflexivity).
  assert (Hn : nullish (@JNum QRuntime.num (Some 5%Q)) = false) by reflexivity.
  assert (Ho : forall ms, @JNum QRuntime.num (Some 5%Q) <> JObj ms) by (intros ms; discriminate).
  split; [exact Hp | split; [exact Hn | split; [exact Ho |]]].
  exact (primitive_message_dropped R full_state number_payload "0" _ Hp Hn Ho).
Defined.

Lemma unrecognized_object_ignored_witness :
  parsed R other_payload = Some (JObj other_members) /\
  forallb (fun k => nullish (member k other_members))
    ["ax"; "ay"; "az"; "ax_mg"; "ay_mg"; "az_mg";
     "gx"; "gy"; "gz"; "gx_cds"; "gy_cds"; "gz_cds"] = true /\
  on_message R other_payload "0" full_state =
  Done (log (log full_state (LogRaw (payload_text R other_payload)))
            (LogRx (JObj other_members))).
Proof.
  assert (Hp : parsed R other_payload = Some (JObj other_members)) by (vm_compute; reflexivity).
  assert (Hn : forallb (fun k => nullish (member k other_members))
                 ["ax"; "ay"; "az"; "ax_mg"; "ay_mg"; "az_mg";
                  "gx"; "gy"; "gz"; "gx_cds"; "gy_cds"; "gz_cds"] = true)
    by (vm_compute; reflexivity).
  split; [exact Hp | split; [exact Hn |]].
  exact (unrecognized_object_ignored R full_state other_payload "0" other_members Hp Hn).
Defined.
